(** * Streamlit "magic": the syntax-tree rewriting pass of [lib/streamlit/magic.py]

    The pass walks the statement sequences of a parsed Python module, wraps
    bare expression statements into calls of
    [__streamlit__._transparent_write] and inserts
    [import streamlit as __streamlit__] near the top of the module.

    The embedding follows the Python [ast] classes the source dispatches on,
    as the parser of Python 3.5 to 3.7 produces them (a string literal is an
    [ast.Str] node).  Line and column attributes, the only thing
    [ast.fix_missing_locations] writes, are not part of the embedding.
    Mutation of the tree is rendered by explicit value passing, and every
    effect of the source (a call of the parser, an entry into
    [_modify_ast_subtree], an assignment into the tree, the call of
    [ast.fix_missing_locations]) is recorded, in program order, in a trace. *)

From Stdlib Require Import List String Bool Arith Lia.
Import ListNotations.
Open Scope string_scope.
Open Scope list_scope.
Open Scope nat_scope.

Set Implicit Arguments.

(* [length] is the length of a list throughout. *)
Abbreviation length := Datatypes.length (only parsing).
Set Warnings "-register-all".


(* ================================================================== *)
(** ** The syntax tree *)

Module Ast.

(** [ast.Load], [ast.Store], [ast.Del]. *)
Inductive expr_context : Type := Load | Store | Del.

(** The expression classes the pass tells apart ([Call], [Str], [Tuple],
    [Name]), the ones it builds ([Call], [Attribute], [Name], [Str]) and
    some of the remaining ones; [OtherExpr] stands for every expression
    class that is not listed, named by its class name.  [starargs] and
    [kwargs] are the two extra attributes the source sets on the calls it
    builds. *)
Inductive expr : Type :=
| Call (func : expr) (args : list expr) (keywords : list (option string * expr))
       (starargs kwargs : option expr)
| Str (s : string)
| Tuple (elts : list expr) (ctx : expr_context)
| Name (id : string) (ctx : expr_context)
| Attribute (value : expr) (attr : string) (ctx : expr_context)
| Num (n : nat)
| NameConstant (c : option bool)
| List_ (elts : list expr) (ctx : expr_context)
| BinOp (left : expr) (op : string) (right : expr)
| OtherExpr (class : string) (children : list expr).

(** [ast.alias(name, asname)]. *)
Record alias : Type := mk_alias { alias_name : string; alias_asname : option string }.

(** Statements.  [FunctionDef], [With] and [Try] are the block-bearing
    classes the walker enters; [ClassDef] and [If] bear blocks too but are
    not entered; [OtherStmt] stands for every statement class that is not
    listed. *)
Inductive stmt : Type :=
| FunctionDef (name : string) (params : list string) (body : list stmt)
              (decorator_list : list expr) (returns : option expr)
| ClassDef (name : string) (bases : list expr) (body : list stmt)
| With (items : list (expr * option expr)) (body : list stmt)
| Try (body : list stmt) (handlers : list excepthandler)
      (orelse : list stmt) (finalbody : list stmt)
| If (test : expr) (body : list stmt) (orelse : list stmt)
| Expr (value : expr)
| Import (names : list alias)
| ImportFrom (module : option string) (names : list alias) (level : nat)
| Assign (targets : list expr) (value : expr)
| Return (value : option expr)
| Pass
| OtherStmt (class : string)
with excepthandler : Type :=
| ExceptHandler (type : option expr) (name : option string) (body : list stmt).

(** [ast.Module(body)], what [ast.parse(code, path, 'exec')] returns. *)
Record module : Type := Module { mod_body : list stmt }.

(** The classes a node that owns a processed statement sequence can have:
    the value of [type(tree)] inside [_modify_ast_subtree]. *)
Inductive node_type : Type :=
| ast_Module | ast_FunctionDef | ast_With | ast_Try | ast_ExceptHandler.

(** The attribute names [_modify_ast_subtree] is called with. *)
Inductive body_attr : Type := attr_body | attr_finalbody.

End Ast.
Import Ast.

(* ================================================================== *)
(** ** Effects: a trace of what the pass does, in program order *)

Inductive event : Type :=
| EvParse (code script_path : string)
    (* ast.parse(code, script_path, 'exec') *)
| EvEnter (owner : node_type) (attr : body_attr)
    (* body = getattr(tree, body_attr) *)
| EvSetValue (owner : node_type) (i : nat) (value : expr)
    (* node.value = value *)
| EvStoreStmt (i : nat)
    (* body[i] = _modify_ast_subtree(node) *)
| EvStoreHandler (j : nat)
    (* node.handlers[j] = _modify_ast_subtree(inner_node) *)
| EvStoreFinalbody
    (* node.finalbody = finally_node.finalbody *)
| EvInsertImport (index : nat)
    (* tree.body.insert(index, st_import) *)
| EvFixLocations (owner : node_type).
    (* ast.fix_missing_locations(tree) *)

(** A result together with the events that producing it caused. *)
Definition M (A : Type) : Type := (A * list event)%type.

Definition ret {A} (a : A) : M A := (a, []).

Definition bind {A B} (m : M A) (k : A -> M B) : M B :=
  let (a, w) := m in let (b, w') := k a in (b, w ++ w').

Definition tell (e : event) : M unit := (tt, [e]).

Definition value_of {A} (m : M A) : A := fst m.
Definition trace_of {A} (m : M A) : list event := snd m.

Notation "x <- c1 ;; c2" := (bind c1 (fun x => c2))
  (at level 61, c1 at next level, right associativity).
Notation "c1 ;; c2" := (bind c1 (fun _ => c2))
  (at level 61, right associativity).

(** [for i, x in enumerate(xs): xs[i] = f(i, x)], from index [i] on.  The
    source assigns only to the slot of the element it is visiting, so the
    sequence keeps its length while it is iterated. *)
Definition for_enumerate {A} (f : nat -> A -> M A) : nat -> list A -> M (list A) :=
  fix loop (i : nat) (xs : list A) : M (list A) :=
    match xs with
    | [] => ret []
    | x :: rest =>
        x' <- f i x ;;
        rest' <- loop (S i) rest ;;
        ret (x' :: rest')
    end.

(* ================================================================== *)
(** ** The builders *)

(** [_build_st_import_statement]: [import streamlit as __streamlit__]. *)
Definition _build_st_import_statement : stmt :=
  Import [ mk_alias "streamlit" (Some "__streamlit__") ].

(** [_build_st_write_call]: [__streamlit__._transparent_write], called on the expressions [nodes]. *)
Definition _build_st_write_call (nodes : list expr) : expr :=
  Call (Attribute (Name "__streamlit__" Load) "_transparent_write" Load)
       nodes [] None None.

(* ================================================================== *)
(** ** The classifier and rewriter *)

(** The tests [type(node.value) is ast.Call], [... is ast.Str] and
    [parent_type in (ast.FunctionDef, ast.Module)].  [Str] is the class of
    string literals in the Python versions the source was written for. *)
Definition is_Call (e : expr) : bool :=
  match e with Call _ _ _ _ _ => true | _ => false end.

Definition is_Str (e : expr) : bool :=
  match e with Str _ => true | _ => false end.

Definition in_FunctionDef_Module (parent_type : node_type) : bool :=
  match parent_type with
  | ast_FunctionDef | ast_Module => true
  | _ => false
  end.

(** [_get_st_write_from_expr(node, i, parent_type)], where [value] is
    [node.value], the one attribute of the [Expr] node that is read.
    The result [None] is Python's [None]: no replacement. *)
Definition _get_st_write_from_expr (value : expr) (i : nat)
    (parent_type : node_type) : option expr :=
  (* Don't change function calls *)
  if is_Call value then None
  (* Don't change Docstring nodes *)
  else if (i =? 0) && is_Str value && in_FunctionDef_Module parent_type then None
  else
    match value with
    | Tuple elts _ => Some (_build_st_write_call elts)
    | Str _ => Some (_build_st_write_call [value])
    | Name id _ =>
        Some (_build_st_write_call [Str ("**" ++ id ++ "**")%string; value])
    | _ => Some (_build_st_write_call [value])
    end.

(* ================================================================== *)
(** ** The tree walker *)

(** The loop of [_modify_ast_subtree] over the sequence [body] owned by a
    node of class [owner], entered through the attribute [attr]. *)
Definition subtree_loop (loop_body : node_type -> nat -> stmt -> M stmt)
    (owner : node_type) (attr : body_attr) (body : list stmt) : M (list stmt) :=
  tell (EvEnter owner attr) ;;
  for_enumerate (loop_body owner) 0 body.

(** An invocation [_modify_ast_subtree(node, body_attr)] with
    [is_root=False], seen from the sequence it processes: the loop, then
    [ast.fix_missing_locations(tree)]; the node it returns is [node] with
    that sequence replaced. *)
Definition modify_nested (loop_body : node_type -> nat -> stmt -> M stmt)
    (owner : node_type) (attr : body_attr) (body : list stmt) : M (list stmt) :=
  body' <- subtree_loop loop_body owner attr body ;;
  tell (EvFixLocations owner) ;;
  ret body'.

(** [node.handlers[j] = _modify_ast_subtree(inner_node)]. *)
Definition modify_handler (loop_body : node_type -> nat -> stmt -> M stmt)
    (j : nat) (inner_node : excepthandler) : M excepthandler :=
  match inner_node with
  | ExceptHandler type name body =>
      body' <- modify_nested loop_body ast_ExceptHandler attr_body body ;;
      tell (EvStoreHandler j) ;;
      ret (ExceptHandler type name body')
  end.

(** The body of the loop for the statement [node] at index [i] of a
    sequence owned by a node of class [parent_type]; the result is the
    statement found at index [i] afterwards. *)
Fixpoint loop_body (parent_type : node_type) (i : nat) (node : stmt) {struct node}
  : M stmt :=
  match node with
  (* Parse the contents of functions and With statements *)
  | FunctionDef name params body decorator_list returns =>
      body' <- modify_nested loop_body ast_FunctionDef attr_body body ;;
      tell (EvStoreStmt i) ;;
      ret (FunctionDef name params body' decorator_list returns)
  | With items body =>
      body' <- modify_nested loop_body ast_With attr_body body ;;
      tell (EvStoreStmt i) ;;
      ret (With items body')
  (* Parse the contents of try statements *)
  | Try body handlers orelse finalbody =>
      handlers' <- for_enumerate (modify_handler loop_body) 0 handlers ;;
      finalbody' <- modify_nested loop_body ast_Try attr_finalbody finalbody ;;
      tell EvStoreFinalbody ;;
      body' <- modify_nested loop_body ast_Try attr_body body ;;
      tell (EvStoreStmt i) ;;
      ret (Try body' handlers' orelse finalbody')
  (* Convert expression nodes to st.write *)
  | Expr value =>
      match _get_st_write_from_expr value i parent_type with
      | Some value' =>
          tell (EvSetValue parent_type i value') ;;
          ret (Expr value')
      | None => ret node
      end
  | _ => ret node
  end.

(* ================================================================== *)
(** ** The import injector *)

(** [type(s) in (ast.ImportFrom, ast.Import)]. *)
Definition is_import (s : stmt) : bool :=
  match s with
  | Import _ | ImportFrom _ _ _ => true
  | _ => false
  end.

(** [type(s) is ast.Expr and type(s.value) is ast.Str]. *)
Definition is_Expr_Str (s : stmt) : bool :=
  match s with
  | Expr value => is_Str value
  | _ => false
  end.

(** A test on [body[i]] behind a guard that [i] is in range. *)
Definition test_at (body : list stmt) (i : nat) (test : stmt -> bool) : bool :=
  match nth_error body i with
  | Some s => test s
  | None => false
  end.

(** Python's [list.insert(i, x)] for [0 <= i]: [x] goes before index [i],
    or to the end when the list is shorter. *)
Definition list_insert {A} (i : nat) (x : A) (xs : list A) : list A :=
  firstn i xs ++ x :: skipn i xs.

(** The index [_insert_import_statement] passes to [insert]. *)
Definition import_index (body : list stmt) : nat :=
  if negb (length body =? 0) && test_at body 0 is_import then 1
  else if (1 <? length body) && test_at body 0 is_Expr_Str
          && test_at body 1 is_import then 2
  else 0.

(** [_insert_import_statement(tree)]. *)
Definition _insert_import_statement (tree : module) : M module :=
  let st_import := _build_st_import_statement in
  let index := import_index (mod_body tree) in
  tell (EvInsertImport index) ;;
  ret (Module (list_insert index st_import (mod_body tree))).

(** [_modify_ast_subtree(tree, is_root=...)] on a [Module], the class of
    tree [add_magic] passes. *)
Definition _modify_ast_subtree (tree : module) (is_root : bool) : M module :=
  body' <- subtree_loop loop_body ast_Module attr_body (mod_body tree) ;;
  tree' <- (if is_root then _insert_import_statement (Module body')
            else ret (Module body')) ;;
  tell (EvFixLocations ast_Module) ;;
  ret tree'.

(* ================================================================== *)
(** ** The entry point *)

(** What a call of [add_magic] comes to. *)
Inductive outcome : Type :=
| ReturnsTree (tree : module)
| ReturnsCode (code : string)
| RaisesSyntaxError (msg : string).

Section AddMagic.

(** The value of [compatibility.is_running_py3()] and the parser
    [ast.parse(code, script_path, 'exec')], which either raises a syntax
    error or returns a module. *)
Variable is_running_py3 : bool.
Variable ast_parse : string -> string -> string + module.

Definition add_magic (code script_path : string) : M outcome :=
  if is_running_py3 then
    tell (EvParse code script_path) ;;
    match ast_parse code script_path with
    | inr tree =>
        tree' <- _modify_ast_subtree tree true ;;
        ret (ReturnsTree tree')
    | inl msg => ret (RaisesSyntaxError msg)
    end
  else ret (ReturnsCode code).

End AddMagic.

(* ================================================================== *)
(** ** What the claims speak about *)

(** The class of an expression as far as the classifier looks at it. *)
Inductive expr_kind : Type := KCall | KStr | KTuple | KName | KOther.

Definition kind_of (e : expr) : expr_kind :=
  match e with
  | Call _ _ _ _ _ => KCall
  | Str _ => KStr
  | Tuple _ _ => KTuple
  | Name _ _ => KName
  | _ => KOther
  end.

(** The six rules of the classifier, in the order the source tests them. *)
Inductive rule : Type :=
| RuleCall | RuleDocstring | RuleTuple | RuleStr | RuleName | RuleOtherwise.

(** The branch of [_get_st_write_from_expr] that is taken. *)
Definition applied_rule (value : expr) (i : nat) (parent_type : node_type) : rule :=
  if is_Call value then RuleCall
  else if (i =? 0) && is_Str value && in_FunctionDef_Module parent_type
       then RuleDocstring
  else match value with
       | Tuple _ _ => RuleTuple
       | Str _ => RuleStr
       | Name _ _ => RuleName
       | _ => RuleOtherwise
       end.

(** What each rule returns for the expression [value]. *)
Definition rule_result (r : rule) (value : expr) : option expr :=
  match r with
  | RuleCall | RuleDocstring => None
  | RuleTuple =>
      match value with
      | Tuple elts _ => Some (_build_st_write_call elts)
      | _ => None
      end
  | RuleName =>
      match value with
      | Name id _ =>
          Some (_build_st_write_call [Str ("**" ++ id ++ "**")%string; value])
      | _ => None
      end
  | RuleStr | RuleOtherwise => Some (_build_st_write_call [value])
  end.

(** The statement an expression statement becomes: its value replaced when
    the classifier returns a replacement, itself otherwise. *)
Definition rewritten (value : expr) (i : nat) (parent_type : node_type) : stmt :=
  match _get_st_write_from_expr value i parent_type with
  | Some value' => Expr value'
  | None => Expr value
  end.

(** The index at which the policy of the injector, as the specification
    words it, puts the import. *)
Definition spec_import_index (body : list stmt) : nat :=
  match body with
  | (Import _ | ImportFrom _ _ _) :: _ => 1
  | Expr (Str _) :: (Import _ | ImportFrom _ _ _) :: _ => 2
  | _ => 0
  end.

(** A statement with the value of every expression statement of its
    processed sequences blanked: what the pass must leave as it is. *)
Definition blank : expr := NameConstant None.

Fixpoint skeleton (s : stmt) : stmt :=
  match s with
  | FunctionDef name params body decorator_list returns =>
      FunctionDef name params (map skeleton body) decorator_list returns
  | With items body => With items (map skeleton body)
  | Try body handlers orelse finalbody =>
      Try (map skeleton body)
          (map (fun h => match h with
                         | ExceptHandler type name hbody =>
                             ExceptHandler type name (map skeleton hbody)
                         end) handlers)
          orelse
          (map skeleton finalbody)
  | Expr _ => Expr blank
  | _ => s
  end.

(** The lengths of the processed sequences inside a statement, in the order
    the walker enters them. *)
Fixpoint sequence_lengths (s : stmt) : list nat :=
  match s with
  | FunctionDef _ _ body _ _ => length body :: flat_map sequence_lengths body
  | With _ body => length body :: flat_map sequence_lengths body
  | Try body handlers _ finalbody =>
      flat_map (fun h => match h with
                         | ExceptHandler _ _ hbody =>
                             length hbody :: flat_map sequence_lengths hbody
                         end) handlers
      ++ (length finalbody :: flat_map sequence_lengths finalbody)
      ++ (length body :: flat_map sequence_lengths body)
  | _ => []
  end.

(** The same for a module: the root sequence first. *)
Definition module_sequence_lengths (tree : module) : list nat :=
  length (mod_body tree) :: flat_map sequence_lengths (mod_body tree).

(** [xs] without its element at index [i]. *)
Definition remove_at {A} (i : nat) (xs : list A) : list A :=
  firstn i xs ++ skipn (S i) xs.

(** [f] mapped over [xs] with the index of each element, counted from [i]. *)
Fixpoint imap_from {A B} (f : nat -> A -> B) (i : nat) (xs : list A) : list B :=
  match xs with
  | [] => []
  | x :: rest => f i x :: imap_from f (S i) rest
  end.

(** The body of a handler. *)
Definition handler_body (h : excepthandler) : list stmt :=
  match h with ExceptHandler _ _ body => body end.

(** The statements whose blocks the walker enters. *)
Definition entered (s : stmt) : bool :=
  match s with
  | FunctionDef _ _ _ _ _ | With _ _ | Try _ _ _ _ => true
  | _ => false
  end.

(** How deep tuples nest at the top of an expression. *)
Fixpoint tuple_depth (e : expr) : nat :=
  match e with
  | Tuple elts _ => S (fold_right (fun x n => Nat.max (tuple_depth x) n) 0 elts)
  | _ => 0
  end.

(* ================================================================== *)
(** ** What a finished pass looks like *)

(** [f] holds of every element of [xs] together with its index, counted
    from [i]. *)
Definition forallb_from {A} (f : nat -> A -> bool) : nat -> list A -> bool :=
  fix all (i : nat) (xs : list A) : bool :=
    match xs with
    | [] => true
    | x :: rest => f i x && all (S i) rest
    end.

(** An expression the classifier has nothing to do for: a call, or a
    docstring. *)
Definition settled_value (value : expr) (i : nat) (owner : node_type) : bool :=
  is_Call value || ((i =? 0) && is_Str value && in_FunctionDef_Module owner).

(** Every expression statement of every processed sequence of [s], and [s]
    itself when it is one, holds a call or is a docstring. *)
Fixpoint settled (owner : node_type) (i : nat) (s : stmt) {struct s} : bool :=
  match s with
  | FunctionDef _ _ body _ _ => forallb_from (settled ast_FunctionDef) 0 body
  | With _ body => forallb_from (settled ast_With) 0 body
  | Try body handlers _ finalbody =>
      forallb (fun h => match h with
                        | ExceptHandler _ _ hbody =>
                            forallb_from (settled ast_ExceptHandler) 0 hbody
                        end) handlers
      && forallb_from (settled ast_Try) 0 finalbody
      && forallb_from (settled ast_Try) 0 body
  | Expr value => settled_value value i owner
  | _ => true
  end.

(** The events of each kind. *)
Definition is_set_value (e : event) : bool :=
  match e with EvSetValue _ _ _ => true | _ => false end.

Definition is_insert_import (e : event) : bool :=
  match e with EvInsertImport _ => true | _ => false end.

Definition is_enter (e : event) : bool :=
  match e with EvEnter _ _ => true | _ => false end.

Definition is_fix_locations (e : event) : bool :=
  match e with EvFixLocations _ => true | _ => false end.

(** How many events of a trace satisfy [p]. *)
Definition count_events (p : event -> bool) (t : list event) : nat :=
  length (filter p t).

(** A statement that a walk returns as it is, without assigning a value,
    when it is settled. *)
Definition untouched (s : stmt) : Prop :=
  forall parent_type i,
    settled parent_type i s = true ->
    value_of (loop_body parent_type i s) = s
    /\ count_events is_set_value (trace_of (loop_body parent_type i s)) = 0.

(** The statements the loop has no branch for: neither entered nor an
    expression statement. *)
Definition passed_over (s : stmt) : bool :=
  match s with
  | FunctionDef _ _ _ _ _ | With _ _ | Try _ _ _ _ | Expr _ => false
  | _ => true
  end.

(** The statement [import streamlit as __streamlit__]. *)
Definition is_streamlit_import (s : stmt) : bool :=
  match s with
  | Import [a] =>
      (alias_name a =? "streamlit")%string &&
      match alias_asname a with
      | Some asname => (asname =? "__streamlit__")%string
      | None => false
      end
  | _ => false
  end.

Definition streamlit_imports (tree : module) : nat :=
  length (filter is_streamlit_import (mod_body tree)).

(** The root invocation of the walker, [n] times over. *)
Fixpoint passes (n : nat) (tree : module) : module :=
  match n with
  | 0 => tree
  | S n' => value_of (_modify_ast_subtree (passes n' tree) true)
  end.

(** The arguments of a call, none for any other expression. *)
Definition call_args (e : expr) : list expr :=
  match e with
  | Call _ args _ _ _ => args
  | _ => []
  end.

(* ================================================================== *)
(** ** Three scripts *)

Module Scripts.

Definition x : expr := Name "x" Load.

(** The module of the four lines [x = 1], [x], ['hello'] and [(x, x),]. *)
Definition assign_then_show : module :=
  Module [ Assign [Name "x" Store] (Num 1);
           Expr x;
           Expr (Str "hello");
           Expr (Tuple [Tuple [x; x] Load] Load) ].

(** [from __future__ import annotations] followed by [print(1)]. *)
Definition future_import : module :=
  Module [ ImportFrom (Some "__future__") [mk_alias "annotations" None] 0;
           Expr (Call (Name "print" Load) [Num 1] [] None None) ].

(** A docstring, an import, and a try statement with a handler and a
    finally body. *)
Definition guarded : module :=
  Module [ Expr (Str "doc");
           Import [mk_alias "os" None];
           Try [Expr (Str "a")]
               [ExceptHandler None None [Expr x]]
               [Expr x]
               [Expr (Str "f")] ].

End Scripts.

(* ================================================================== *)
(** ** The trace monad *)

Section Monad.

Context {A B : Type}.

Lemma bind_eq (m : M A) (k : A -> M B) :
  bind m k = (value_of (k (value_of m)), trace_of m ++ trace_of (k (value_of m))).
Proof.
  unfold bind, value_of, trace_of.
  destruct m as [a w]; simpl. destruct (k a); reflexivity.
Qed.

Lemma value_of_bind (m : M A) (k : A -> M B) :
  value_of (bind m k) = value_of (k (value_of m)).
Proof. rewrite bind_eq; reflexivity. Qed.

Lemma trace_of_bind (m : M A) (k : A -> M B) :
  trace_of (bind m k) = trace_of m ++ trace_of (k (value_of m)).
Proof. rewrite bind_eq; reflexivity. Qed.

Lemma value_of_ret (a : A) : value_of (ret a) = a.
Proof. reflexivity. Qed.

Lemma trace_of_ret (a : A) : trace_of (ret a) = [].
Proof. reflexivity. Qed.

End Monad.

Lemma value_of_tell (e : event) : value_of (tell e) = tt.
Proof. reflexivity. Qed.

Lemma trace_of_tell (e : event) : trace_of (tell e) = [e].
Proof. reflexivity. Qed.

Create Rewrite HintDb trace.
#[export] Hint Rewrite @value_of_bind @trace_of_bind @value_of_ret @trace_of_ret
  value_of_tell trace_of_tell app_nil_r : trace.

#[global] Arguments bind : simpl never.
#[global] Arguments ret : simpl never.
#[global] Arguments tell : simpl never.
#[global] Arguments value_of : simpl never.
#[global] Arguments trace_of : simpl never.

Ltac run := autorewrite with trace; cbn [app].

(* ================================================================== *)
(** ** The loop *)

Section ForEnumerate.

Context {A : Type} (f : nat -> A -> M A).

Lemma for_enumerate_cons (i : nat) (x : A) (rest : list A) :
  for_enumerate f i (x :: rest) =
  (x' <- f i x ;; rest' <- for_enumerate f (S i) rest ;; ret (x' :: rest')).
Proof. reflexivity. Qed.

Lemma for_enumerate_value (xs : list A) : forall i,
  value_of (for_enumerate f i xs) = imap_from (fun j x => value_of (f j x)) i xs.
Proof.
  induction xs as [|x rest IH]; intro i.
  - reflexivity.
  - rewrite for_enumerate_cons. run. now rewrite IH.
Qed.

Lemma for_enumerate_trace (xs : list A) : forall i,
  trace_of (for_enumerate f i xs) =
  List.concat (imap_from (fun j x => trace_of (f j x)) i xs).
Proof.
  induction xs as [|x rest IH]; intro i.
  - reflexivity.
  - rewrite for_enumerate_cons. run. now rewrite IH.
Qed.

End ForEnumerate.

Lemma imap_from_length {A B} (f : nat -> A -> B) (xs : list A) : forall i,
  length (imap_from f i xs) = length xs.
Proof. induction xs; intro i; simpl; [|rewrite IHxs]; reflexivity. Qed.

Lemma imap_from_nth_error {A B} (f : nat -> A -> B) (xs : list A) : forall i n,
  nth_error (imap_from f i xs) n = option_map (f (i + n)) (nth_error xs n).
Proof.
  induction xs as [|x rest IH]; intros i [|n]; simpl; try reflexivity.
  - now rewrite Nat.add_0_r.
  - rewrite IH. now rewrite Nat.add_succ_r.
Qed.

Lemma imap_from_map {A B C} (g : B -> C) (h : A -> C) (f : nat -> A -> B)
    (xs : list A) :
  Forall (fun x => forall j, g (f j x) = h x) xs ->
  forall i, map g (imap_from f i xs) = map h xs.
Proof.
  induction 1 as [|x rest Hx _ IH]; intro i; simpl.
  - reflexivity.
  - now rewrite Hx, IH.
Qed.

Lemma imap_from_flat_map {A B C} (g : B -> list C) (h : A -> list C)
    (f : nat -> A -> B) (xs : list A) :
  Forall (fun x => forall j, g (f j x) = h x) xs ->
  forall i, flat_map g (imap_from f i xs) = flat_map h xs.
Proof.
  induction 1 as [|x rest Hx _ IH]; intro i; simpl.
  - reflexivity.
  - now rewrite Hx, IH.
Qed.

(* ================================================================== *)
(** ** Induction along the walk *)

Section WalkInduction.

Variable P : stmt -> Prop.

Hypothesis P_FunctionDef : forall name params body decorator_list returns,
  Forall P body -> P (FunctionDef name params body decorator_list returns).
Hypothesis P_With : forall items body,
  Forall P body -> P (With items body).
Hypothesis P_Try : forall body handlers orelse finalbody,
  Forall P body ->
  Forall (fun h => Forall P (handler_body h)) handlers ->
  Forall P finalbody ->
  P (Try body handlers orelse finalbody).
Hypothesis P_rest : forall s, entered s = false -> P s.

Fixpoint walk_ind (s : stmt) : P s :=
  let all :=
    fix all (l : list stmt) : Forall P l :=
      match l with
      | [] => Forall_nil P
      | x :: rest => Forall_cons x (walk_ind x) (all rest)
      end in
  match s as s0 return P s0 with
  | FunctionDef name params body decorator_list returns =>
      P_FunctionDef name params decorator_list returns (all body)
  | With items body => P_With items (all body)
  | Try body handlers orelse finalbody =>
      P_Try orelse (all body)
        ((fix each (hs : list excepthandler)
            : Forall (fun h => Forall P (handler_body h)) hs :=
            match hs with
            | [] => Forall_nil _
            | ExceptHandler type name hbody :: rest =>
                Forall_cons (ExceptHandler type name hbody) (all hbody) (each rest)
            end) handlers)
        (all finalbody)
  | ClassDef name bases body => P_rest (ClassDef name bases body) eq_refl
  | If test body orelse => P_rest (If test body orelse) eq_refl
  | Expr value => P_rest (Expr value) eq_refl
  | Import names => P_rest (Import names) eq_refl
  | ImportFrom module names level => P_rest (ImportFrom module names level) eq_refl
  | Assign targets value => P_rest (Assign targets value) eq_refl
  | Return value => P_rest (Return value) eq_refl
  | Pass => P_rest Pass eq_refl
  | OtherStmt class => P_rest (OtherStmt class) eq_refl
  end.

End WalkInduction.

(* ================================================================== *)
(** ** The walker, equation by equation *)

Lemma subtree_loop_value (owner : node_type) (attr : body_attr) (body : list stmt) :
  value_of (subtree_loop loop_body owner attr body) =
  imap_from (fun j x => value_of (loop_body owner j x)) 0 body.
Proof. unfold subtree_loop. run. apply for_enumerate_value. Qed.

Lemma subtree_loop_trace (owner : node_type) (attr : body_attr) (body : list stmt) :
  trace_of (subtree_loop loop_body owner attr body) =
  EvEnter owner attr ::
  List.concat (imap_from (fun j x => trace_of (loop_body owner j x)) 0 body).
Proof. unfold subtree_loop. run. now rewrite for_enumerate_trace. Qed.

Lemma modify_nested_value (owner : node_type) (attr : body_attr) (body : list stmt) :
  value_of (modify_nested loop_body owner attr body) =
  imap_from (fun j x => value_of (loop_body owner j x)) 0 body.
Proof. unfold modify_nested. run. apply subtree_loop_value. Qed.

Lemma modify_nested_trace (owner : node_type) (attr : body_attr) (body : list stmt) :
  trace_of (modify_nested loop_body owner attr body) =
  trace_of (subtree_loop loop_body owner attr body) ++ [EvFixLocations owner].
Proof. unfold modify_nested. run. reflexivity. Qed.

Lemma modify_handler_value (j : nat) (h : excepthandler) :
  value_of (modify_handler loop_body j h) =
  match h with
  | ExceptHandler type name body =>
      ExceptHandler type name
        (value_of (modify_nested loop_body ast_ExceptHandler attr_body body))
  end.
Proof. destruct h; unfold modify_handler. run. reflexivity. Qed.

Lemma modify_handler_trace (j : nat) (h : excepthandler) :
  trace_of (modify_handler loop_body j h) =
  trace_of (modify_nested loop_body ast_ExceptHandler attr_body (handler_body h))
  ++ [EvStoreHandler j].
Proof. destruct h; unfold modify_handler. run. reflexivity. Qed.

Lemma loop_body_FunctionDef parent_type i name params body decorator_list returns :
  value_of (loop_body parent_type i (FunctionDef name params body decorator_list returns)) =
  FunctionDef name params
    (value_of (modify_nested loop_body ast_FunctionDef attr_body body))
    decorator_list returns.
Proof. simpl. run. reflexivity. Qed.

Lemma loop_body_With parent_type i items body :
  value_of (loop_body parent_type i (With items body)) =
  With items (value_of (modify_nested loop_body ast_With attr_body body)).
Proof. simpl. run. reflexivity. Qed.

Lemma loop_body_Try parent_type i body handlers orelse finalbody :
  value_of (loop_body parent_type i (Try body handlers orelse finalbody)) =
  Try (value_of (modify_nested loop_body ast_Try attr_body body))
      (value_of (for_enumerate (modify_handler loop_body) 0 handlers))
      orelse
      (value_of (modify_nested loop_body ast_Try attr_finalbody finalbody)).
Proof. simpl. run. reflexivity. Qed.

Lemma loop_body_Expr parent_type i value :
  loop_body parent_type i (Expr value) =
  match _get_st_write_from_expr value i parent_type with
  | Some value' => (Expr value', [EvSetValue parent_type i value'])
  | None => (Expr value, [])
  end.
Proof. simpl. destruct (_get_st_write_from_expr value i parent_type); reflexivity. Qed.

Lemma loop_body_Expr_value parent_type i value :
  value_of (loop_body parent_type i (Expr value)) = rewritten value i parent_type.
Proof.
  rewrite loop_body_Expr. unfold rewritten.
  destruct (_get_st_write_from_expr value i parent_type); reflexivity.
Qed.

Lemma loop_body_rest parent_type i s :
  entered s = false -> (forall value, s <> Expr value) ->
  loop_body parent_type i s = ret s.
Proof.
  destruct s; simpl; intros He Hn; try discriminate; try reflexivity.
  now elim (Hn value).
Qed.

(** The class of a statement, and which blocks it has, survive the loop. *)
Lemma loop_body_skeleton : forall s parent_type i,
  skeleton (value_of (loop_body parent_type i s)) = skeleton s.
Proof.
  induction s using walk_ind; intros parent_type i.
  - rewrite loop_body_FunctionDef, modify_nested_value. simpl. f_equal.
    apply imap_from_map.
    eapply Forall_impl; [|eassumption]. intros x Hx j. apply Hx.
  - rewrite loop_body_With, modify_nested_value. simpl. f_equal.
    apply imap_from_map.
    eapply Forall_impl; [|eassumption]. intros x Hx j. apply Hx.
  - rewrite loop_body_Try, !modify_nested_value, for_enumerate_value.
    simpl. f_equal.
    + apply imap_from_map.
      eapply Forall_impl; [|eassumption]. intros x Hx j. apply Hx.
    + apply imap_from_map.
      eapply Forall_impl; [|eassumption]. intros [type name hbody] Hh j.
      rewrite modify_handler_value, modify_nested_value. f_equal.
      apply imap_from_map.
      eapply Forall_impl; [|exact Hh]. intros x Hx k. apply Hx.
    + apply imap_from_map.
      eapply Forall_impl; [|eassumption]. intros x Hx j. apply Hx.
  - destruct s; try discriminate; try reflexivity.
    rewrite loop_body_Expr_value. unfold rewritten.
    destruct (_get_st_write_from_expr value i parent_type); reflexivity.
Qed.

(** No processed sequence inside a statement changes its length. *)
Lemma loop_body_sequence_lengths : forall s parent_type i,
  sequence_lengths (value_of (loop_body parent_type i s)) = sequence_lengths s.
Proof.
  induction s using walk_ind; intros parent_type i.
  - rewrite loop_body_FunctionDef, modify_nested_value. simpl.
    rewrite imap_from_length. f_equal.
    apply imap_from_flat_map.
    eapply Forall_impl; [|eassumption]. intros x Hx j. apply Hx.
  - rewrite loop_body_With, modify_nested_value. simpl.
    rewrite imap_from_length. f_equal.
    apply imap_from_flat_map.
    eapply Forall_impl; [|eassumption]. intros x Hx j. apply Hx.
  - rewrite loop_body_Try, !modify_nested_value, for_enumerate_value.
    simpl. rewrite !imap_from_length.
    f_equal; [|f_equal; f_equal; [|f_equal]].
    + apply imap_from_flat_map.
      eapply Forall_impl; [|eassumption]. intros [type name hbody] Hh j.
      rewrite modify_handler_value, modify_nested_value.
      rewrite imap_from_length. f_equal.
      apply imap_from_flat_map.
      eapply Forall_impl; [|exact Hh]. intros x Hx k. apply Hx.
    + apply imap_from_flat_map.
      eapply Forall_impl; [|eassumption]. intros x Hx j. apply Hx.
    + apply imap_from_flat_map.
      eapply Forall_impl; [|eassumption]. intros x Hx j. apply Hx.
  - destruct s; try discriminate; try reflexivity.
    rewrite loop_body_Expr_value. unfold rewritten.
    destruct (_get_st_write_from_expr value i parent_type); reflexivity.
Qed.

(* ================================================================== *)
(** ** Lists *)

Lemma list_insert_length {A} (i : nat) (x : A) (xs : list A) :
  length (list_insert i x xs) = S (length xs).
Proof.
  unfold list_insert. rewrite length_app. simpl.
  rewrite length_firstn, length_skipn. lia.
Qed.

Lemma list_insert_nth_error {A} (i : nat) (x : A) (xs : list A) :
  i <= length xs -> nth_error (list_insert i x xs) i = Some x.
Proof.
  intro Hi. unfold list_insert.
  rewrite nth_error_app2; rewrite length_firstn, Nat.min_l by assumption.
  - now rewrite Nat.sub_diag.
  - apply Nat.le_refl.
Qed.

Lemma remove_at_list_insert {A} (i : nat) (x : A) (xs : list A) :
  i <= length xs -> remove_at i (list_insert i x xs) = xs.
Proof.
  intro Hi. unfold remove_at, list_insert.
  assert (Hlen : length (firstn i xs) = i)
    by (rewrite length_firstn; now apply Nat.min_l).
  rewrite firstn_app, skipn_app, Hlen.
  replace (i - i) with 0 by lia. replace (S i - i) with 1 by lia.
  rewrite firstn_all2 by lia. rewrite (skipn_all2 (firstn i xs)) by lia.
  simpl. rewrite app_nil_r. apply firstn_skipn.
Qed.

Lemma list_insert_In {A} (i : nat) (x y : A) (xs : list A) :
  In y xs -> In y (list_insert i x xs).
Proof.
  intro Hy. unfold list_insert. rewrite <- (firstn_skipn i xs) in Hy.
  apply in_app_or in Hy. apply in_or_app. simpl. tauto.
Qed.

Lemma list_insert_flat_map {A B} (g : A -> list B) (i : nat) (x : A) (xs : list A) :
  g x = [] -> flat_map g (list_insert i x xs) = flat_map g xs.
Proof.
  intro Hx. unfold list_insert.
  rewrite <- (firstn_skipn i xs) at 3.
  rewrite !flat_map_app. simpl. now rewrite Hx.
Qed.

Lemma imap_from_middle {A B} (f : nat -> A -> B) (pre post : list A) (x : A) :
  forall i,
  nth_error (imap_from f i (pre ++ x :: post)) (length pre) =
  Some (f (i + length pre) x).
Proof.
  intro i. rewrite imap_from_nth_error.
  rewrite nth_error_app2, Nat.sub_diag by apply Nat.le_refl. reflexivity.
Qed.

(* ================================================================== *)
(** ** The import injector *)

Lemma import_index_spec (body : list stmt) :
  import_index body = spec_import_index body.
Proof.
  unfold import_index, test_at.
  destruct body as [|s0 [|s1 rest]]; simpl.
  - reflexivity.
  - destruct s0; try reflexivity. destruct value; reflexivity.
  - destruct s0; try reflexivity.
    destruct value; simpl; destruct s1; reflexivity.
Qed.

Lemma spec_import_index_le (body : list stmt) :
  spec_import_index body <= length body.
Proof.
  destruct body as [|s0 [|s1 rest]]; simpl.
  - lia.
  - destruct s0; try destruct value; simpl; lia.
  - destruct s0; try destruct value; try destruct s1; simpl; lia.
Qed.

(** C1: the import injector puts the synthetic import at index 1 of the
    root sequence when the first statement is an import or a
    from-import; at index 2 when there are at least two statements, the
    first is a string-literal expression statement and the second is an
    import or a from-import; and at index 0 otherwise, the empty sequence
    included.  A call inserts exactly one statement: the result is the
    sequence with the import at that index and every other statement kept,
    in order. *)
Theorem insert_import_statement_index (tree : module) :
  let body := mod_body tree in
  let k := spec_import_index body in
  let call := _insert_import_statement tree in
  mod_body (value_of call) = firstn k body ++ _build_st_import_statement :: skipn k body
  /\ k <= length body
  /\ nth_error (mod_body (value_of call)) k = Some _build_st_import_statement
  /\ remove_at k (mod_body (value_of call)) = body
  /\ length (mod_body (value_of call)) = S (length body)
  /\ trace_of call = [EvInsertImport k].
Proof.
  intros body k call. subst call. unfold _insert_import_statement.
  run. cbn [mod_body]. fold body. rewrite import_index_spec. fold k.
  pose proof (spec_import_index_le body) as Hk. fold k in Hk.
  repeat split.
  - exact Hk.
  - now apply list_insert_nth_error.
  - now apply remove_at_list_insert.
  - apply list_insert_length.
Qed.

(* ================================================================== *)
(** ** The statement count *)

Lemma is_import_skeleton (s : stmt) : is_import (skeleton s) = is_import s.
Proof. destruct s; reflexivity. Qed.

Lemma loop_body_is_import (s : stmt) (parent_type : node_type) (i : nat) :
  is_import (value_of (loop_body parent_type i s)) = is_import s.
Proof.
  rewrite <- is_import_skeleton, loop_body_skeleton. apply is_import_skeleton.
Qed.

(** A leading docstring of the module is still one after the loop, and
    nothing else becomes one. *)
Lemma loop_body_is_Expr_Str (s : stmt) :
  is_Expr_Str (value_of (loop_body ast_Module 0 s)) = is_Expr_Str s.
Proof.
  destruct (entered s) eqn:He.
  - destruct s; try discriminate.
    + now rewrite loop_body_FunctionDef.
    + now rewrite loop_body_With.
    + now rewrite loop_body_Try.
  - destruct s; try discriminate; try reflexivity.
    rewrite loop_body_Expr_value. destruct value; reflexivity.
Qed.

Lemma import_index_walked (body : list stmt) :
  import_index (imap_from (fun j x => value_of (loop_body ast_Module j x)) 0 body) =
  import_index body.
Proof.
  unfold import_index, test_at. rewrite imap_from_length.
  rewrite !imap_from_nth_error.
  destruct body as [|s0 [|s1 rest]]; cbn [nth_error option_map Nat.add].
  - reflexivity.
  - now rewrite loop_body_is_import, loop_body_is_Expr_Str.
  - now rewrite !loop_body_is_import, loop_body_is_Expr_Str.
Qed.

(** C2: the pass keeps the number and the order of the statements of every
    processed sequence (function bodies, with-bodies, try bodies, handler
    bodies, finally bodies): after the pass the root sequence is the old one
    with the import inserted, every statement of a processed sequence is
    the statement it was up to the value of expression statements, and the
    lengths of all processed sequences are the old ones except for the root
    sequence, which is longer by exactly one. *)
Theorem statement_count_invariant (tree : module) :
  let tree' := value_of (_modify_ast_subtree tree true) in
  let k := spec_import_index (mod_body tree) in
  nth_error (mod_body tree') k = Some _build_st_import_statement
  /\ map skeleton (remove_at k (mod_body tree')) = map skeleton (mod_body tree)
  /\ length (mod_body tree') = S (length (mod_body tree))
  /\ module_sequence_lengths tree' =
     S (length (mod_body tree)) :: flat_map sequence_lengths (mod_body tree)
  /\ (forall s parent_type i,
        skeleton (value_of (loop_body parent_type i s)) = skeleton s
        /\ sequence_lengths (value_of (loop_body parent_type i s)) =
           sequence_lengths s).
Proof.
  intros tree' k. subst tree'.
  unfold _modify_ast_subtree, _insert_import_statement, module_sequence_lengths.
  run. cbn [mod_body]. rewrite subtree_loop_value.
  rewrite import_index_walked, import_index_spec. fold k.
  set (walked := imap_from (fun j x => value_of (loop_body ast_Module j x)) 0
                   (mod_body tree)).
  assert (Hlen : length walked = length (mod_body tree))
    by apply imap_from_length.
  assert (Hk : k <= length walked)
    by (rewrite Hlen; apply spec_import_index_le).
  repeat split.
  - now apply list_insert_nth_error.
  - rewrite remove_at_list_insert by assumption.
    apply imap_from_map. apply Forall_forall. intros x _ j.
    apply loop_body_skeleton.
  - now rewrite list_insert_length, Hlen.
  - rewrite list_insert_length, Hlen. f_equal.
    rewrite list_insert_flat_map by reflexivity.
    apply imap_from_flat_map. apply Forall_forall. intros x _ j.
    apply loop_body_sequence_lengths.
  - apply loop_body_skeleton.
  - apply loop_body_sequence_lengths.
Qed.

(* ================================================================== *)
(** ** The rewrite rules *)

Lemma modify_ast_subtree_body (tree : module) (is_root : bool) :
  mod_body (value_of (_modify_ast_subtree tree is_root)) =
  let walked := imap_from (fun j x => value_of (loop_body ast_Module j x)) 0
                  (mod_body tree) in
  if is_root
  then list_insert (spec_import_index (mod_body tree)) _build_st_import_statement walked
  else walked.
Proof.
  unfold _modify_ast_subtree, _insert_import_statement.
  destruct is_root; run; cbn [mod_body]; rewrite subtree_loop_value.
  - now rewrite import_index_walked, import_index_spec.
  - reflexivity.
Qed.

Lemma rewritten_in_sequence (owner : node_type) (attr : body_attr)
    (pre post : list stmt) (value : expr) :
  nth_error (value_of (modify_nested loop_body owner attr
                         (pre ++ Expr value :: post))) (length pre) =
  Some (rewritten value (length pre) owner).
Proof.
  rewrite modify_nested_value, imap_from_middle.
  cbn [Nat.add]. now rewrite loop_body_Expr_value.
Qed.

Lemma rewritten_in_module (is_root : bool) (pre post : list stmt) (value : expr) :
  In (rewritten value (length pre) ast_Module)
     (mod_body (value_of (_modify_ast_subtree
                            (Module (pre ++ Expr value :: post)) is_root))).
Proof.
  rewrite modify_ast_subtree_body. cbn [mod_body].
  assert (H : In (rewritten value (length pre) ast_Module)
                (imap_from (fun j x => value_of (loop_body ast_Module j x)) 0
                   (pre ++ Expr value :: post))).
  { eapply nth_error_In. rewrite imap_from_middle.
    cbn [Nat.add]. now rewrite loop_body_Expr_value. }
  destruct is_root; [now apply list_insert_In | exact H].
Qed.

(** C3: for an expression statement whose expression is a [Call], the
    classifier returns no replacement, whatever the index and the class of
    the owning node, and the pass leaves the statement as it is, its
    expression included: the loop assigns nothing, the statement is found
    unchanged at its index in every processed sequence, and unchanged in the
    root sequence of the rewritten module. *)
Theorem call_statement_unchanged
    (func : expr) (args : list expr) (keywords : list (option string * expr))
    (starargs kwargs : option expr) (i : nat) (parent_type : node_type) :
  let call := Call func args keywords starargs kwargs in
  _get_st_write_from_expr call i parent_type = None
  /\ loop_body parent_type i (Expr call) = (Expr call, [])
  /\ (forall attr pre post,
        nth_error (value_of (modify_nested loop_body parent_type attr
                               (pre ++ Expr call :: post))) (length pre) =
        Some (Expr call))
  /\ (forall pre post,
        In (Expr call)
           (mod_body (value_of (_modify_ast_subtree
                                  (Module (pre ++ Expr call :: post)) true)))).
Proof.
  intro call. repeat split.
  - intros attr pre post. now rewrite rewritten_in_sequence.
  - intros pre post.
    exact (rewritten_in_module true pre post call).
Qed.

Lemma tuple_not_its_own_element (elts : list expr) (ctx : expr_context) :
  elts <> [Tuple elts ctx].
Proof.
  intro H. apply (f_equal (fold_right (fun x n => Nat.max (tuple_depth x) n) 0)) in H.
  simpl in H. lia.
Qed.

(** C4: for an expression statement whose expression is a [Tuple], the
    statement's expression becomes a display call whose positional
    arguments are the elements of the tuple, in order, and not the tuple
    as one argument. *)
Theorem tuple_statement_arguments
    (elts : list expr) (ctx : expr_context) (i : nat) (parent_type : node_type) :
  let display :=
    Call (Attribute (Name "__streamlit__" Load) "_transparent_write" Load)
         elts [] None None in
  _get_st_write_from_expr (Tuple elts ctx) i parent_type = Some display
  /\ loop_body parent_type i (Expr (Tuple elts ctx)) =
     (Expr display, [EvSetValue parent_type i display])
  /\ display <> _build_st_write_call [Tuple elts ctx].
Proof.
  intro display.
  assert (Hget : _get_st_write_from_expr (Tuple elts ctx) i parent_type = Some display).
  { unfold _get_st_write_from_expr. simpl. now destruct (i =? 0). }
  split; [exact Hget | split; [now rewrite loop_body_Expr, Hget | ]].
  unfold display, _build_st_write_call. intro H.
  injection H as H. now apply tuple_not_its_own_element in H.
Qed.

(** C5: for an expression statement whose expression is the identifier
    [n], the statement's expression becomes a display call with exactly two
    positional arguments: the string literal made of [n] between two
    pairs of asterisks, then the identifier expression itself. *)
Theorem name_statement_arguments
    (n : string) (ctx : expr_context) (i : nat) (parent_type : node_type) :
  let display :=
    Call (Attribute (Name "__streamlit__" Load) "_transparent_write" Load)
         [Str ("**" ++ n ++ "**")%string; Name n ctx] [] None None in
  _get_st_write_from_expr (Name n ctx) i parent_type = Some display
  /\ loop_body parent_type i (Expr (Name n ctx)) =
     (Expr display, [EvSetValue parent_type i display]).
Proof.
  intro display.
  assert (Hget : _get_st_write_from_expr (Name n ctx) i parent_type = Some display).
  { unfold _get_st_write_from_expr. simpl. now destruct (i =? 0). }
  split; [exact Hget | now rewrite loop_body_Expr, Hget].
Qed.

(** C6: an expression statement at index 0 whose expression is a string
    literal is left unchanged when the owning node is a function definition
    or the module; in a sequence owned by any other class of node (a with
    statement, a try statement, an exception handler) it is rewritten into a
    display call of the literal. *)
Theorem docstring_exemption (s : string) (parent_type : node_type) :
  let display := _build_st_write_call [Str s] in
  _get_st_write_from_expr (Str s) 0 parent_type =
    match parent_type with
    | ast_FunctionDef | ast_Module => None
    | ast_With | ast_Try | ast_ExceptHandler => Some display
    end
  /\ loop_body parent_type 0 (Expr (Str s)) =
    match parent_type with
    | ast_FunctionDef | ast_Module => (Expr (Str s), [])
    | ast_With | ast_Try | ast_ExceptHandler =>
        (Expr display, [EvSetValue parent_type 0 display])
    end
  /\ (forall attr post,
        nth_error (value_of (modify_nested loop_body parent_type attr
                               (Expr (Str s) :: post))) 0 =
        match parent_type with
        | ast_FunctionDef | ast_Module => Some (Expr (Str s))
        | ast_With | ast_Try | ast_ExceptHandler => Some (Expr display)
        end).
Proof.
  intro display. repeat split.
  - destruct parent_type; reflexivity.
  - destruct parent_type; reflexivity.
  - intros attr post.
    pose proof (rewritten_in_sequence parent_type attr [] post (Str s)) as H.
    cbn [app length] in H. rewrite H.
    destruct parent_type; reflexivity.
Qed.

(* ================================================================== *)
(** ** The order of the walk inside a try statement *)

Lemma imap_from_ext {A B} (f g : nat -> A -> B) (xs : list A) :
  (forall j x, f j x = g j x) ->
  forall i, imap_from f i xs = imap_from g i xs.
Proof.
  intro Hfg. induction xs as [|x rest IH]; intro i; simpl.
  - reflexivity.
  - now rewrite Hfg, IH.
Qed.

Lemma imap_from_const {A B} (f : A -> B) (xs : list A) : forall i,
  imap_from (fun _ x => f x) i xs = map f xs.
Proof. induction xs as [|x rest IH]; intro i; simpl; [|rewrite IH]; reflexivity. Qed.

Lemma loop_body_Try_trace parent_type i body handlers orelse finalbody :
  trace_of (loop_body parent_type i (Try body handlers orelse finalbody)) =
  trace_of (for_enumerate (modify_handler loop_body) 0 handlers)
  ++ trace_of (modify_nested loop_body ast_Try attr_finalbody finalbody)
  ++ [EvStoreFinalbody]
  ++ trace_of (modify_nested loop_body ast_Try attr_body body)
  ++ [EvStoreStmt i].
Proof. cbn [loop_body]. run. reflexivity. Qed.

(** C7: on a try statement the walker first processes the bodies of the
    exception handlers, storing each processed handler back at its index
    among the handlers; then the finally body, which it copies back onto
    the try node; and only then the main body of the try statement, after
    which the processed try node is stored back at its index in the owning
    sequence. *)
Theorem try_processing_order
    (parent_type : node_type) (i : nat)
    (body : list stmt) (handlers : list excepthandler)
    (orelse finalbody : list stmt) :
  let on_handlers := for_enumerate (modify_handler loop_body) 0 handlers in
  let on_handler := fun h =>
    modify_nested loop_body ast_ExceptHandler attr_body (handler_body h) in
  let on_finalbody := modify_nested loop_body ast_Try attr_finalbody finalbody in
  let on_body := modify_nested loop_body ast_Try attr_body body in
  let on_try := loop_body parent_type i (Try body handlers orelse finalbody) in
  trace_of on_try =
    trace_of on_handlers
    ++ trace_of on_finalbody ++ [EvStoreFinalbody]
    ++ trace_of on_body ++ [EvStoreStmt i]
  /\ trace_of on_handlers =
     List.concat (imap_from (fun j h => trace_of (on_handler h) ++ [EvStoreHandler j])
                            0 handlers)
  /\ (forall h, exists events,
        trace_of (on_handler h) =
        EvEnter ast_ExceptHandler attr_body :: events ++ [EvFixLocations ast_ExceptHandler])
  /\ (exists events,
        trace_of on_finalbody =
        EvEnter ast_Try attr_finalbody :: events ++ [EvFixLocations ast_Try])
  /\ (exists events,
        trace_of on_body =
        EvEnter ast_Try attr_body :: events ++ [EvFixLocations ast_Try])
  /\ value_of on_try =
     Try (value_of on_body) (value_of on_handlers) orelse (value_of on_finalbody)
  /\ value_of on_handlers =
     map (fun h => match h with
                   | ExceptHandler type name hbody =>
                       ExceptHandler type name (value_of (on_handler h))
                   end) handlers.
Proof.
  intros on_handlers on_handler on_finalbody on_body on_try.
  assert (Hnested : forall owner attr seq, exists events,
            trace_of (modify_nested loop_body owner attr seq) =
            EvEnter owner attr :: events ++ [EvFixLocations owner]).
  { intros owner attr seq. rewrite modify_nested_trace, subtree_loop_trace.
    eexists. reflexivity. }
  split; [apply loop_body_Try_trace|].
  split.
  { subst on_handlers. rewrite for_enumerate_trace. f_equal.
    apply imap_from_ext. intros j h. apply modify_handler_trace. }
  split; [intro h; apply Hnested|].
  split; [apply Hnested|].
  split; [apply Hnested|].
  split; [apply loop_body_Try|].
  subst on_handlers. rewrite for_enumerate_value.
  rewrite <- imap_from_const with (i := 0).
  apply imap_from_ext. intros j [type name hbody].
  now rewrite modify_handler_value.
Qed.

(* ================================================================== *)
(** ** Classification *)

Lemma get_st_write_from_expr_rule (value : expr) (i : nat) (parent_type : node_type) :
  _get_st_write_from_expr value i parent_type =
  rule_result (applied_rule value i parent_type) value.
Proof.
  unfold _get_st_write_from_expr, applied_rule.
  destruct (is_Call value); [reflexivity|].
  destruct ((i =? 0) && is_Str value && in_FunctionDef_Module parent_type);
    [reflexivity|].
  destruct value; reflexivity.
Qed.

Lemma applied_rule_kind (value value' : expr) (i i' : nat) (parent_type : node_type) :
  kind_of value = kind_of value' ->
  (i =? 0) = (i' =? 0) ->
  applied_rule value i parent_type = applied_rule value' i' parent_type.
Proof.
  intros Hk Hi. unfold applied_rule. rewrite Hi.
  destruct value, value'; try discriminate Hk; reflexivity.
Qed.

(** C8: classification is a function of the expression, the index and the
    class of the owning node, and of nothing else: whenever two expression
    statements have expressions of the same class, sit both at index 0 or
    both elsewhere, and are owned by nodes of the same class, the same rule
    of the classifier applies to both and decides what it returns; and the
    statement found after the pass at that index of a processed sequence is
    fixed by that rule, whatever statements stand before or after it. *)
Theorem classification_is_pure
    (value value' : expr) (i i' : nat) (parent_type : node_type) :
  kind_of value = kind_of value' ->
  (i =? 0) = (i' =? 0) ->
  let decision := applied_rule value i parent_type in
  applied_rule value' i' parent_type = decision
  /\ _get_st_write_from_expr value i parent_type = rule_result decision value
  /\ _get_st_write_from_expr value' i' parent_type = rule_result decision value'
  /\ (forall attr pre post, length pre = i ->
        nth_error (value_of (modify_nested loop_body parent_type attr
                               (pre ++ Expr value :: post))) i =
        Some (match rule_result decision value with
              | Some value'' => Expr value''
              | None => Expr value
              end)).
Proof.
  intros Hk Hi decision.
  assert (Hsame : applied_rule value' i' parent_type = decision)
    by (symmetry; now apply applied_rule_kind).
  split; [exact Hsame|].
  split; [apply get_st_write_from_expr_rule|].
  split; [rewrite <- Hsame; apply get_st_write_from_expr_rule|].
  intros attr pre post Hlen. subst i.
  rewrite rewritten_in_sequence. unfold rewritten.
  now rewrite get_st_write_from_expr_rule.
Qed.

Lemma classification_is_pure_witness :
  kind_of (Name "a" Load) = kind_of (Name "b" Load)
  /\ (1 =? 0) = (2 =? 0)
  /\ applied_rule (Name "b" Load) 2 ast_With = RuleName
  /\ _get_st_write_from_expr (Name "b" Load) 2 ast_With =
     Some (_build_st_write_call [Str "**b**"; Name "b" Load])
  /\ nth_error (value_of (modify_nested loop_body ast_With attr_body
                            ([Pass] ++ [Expr (Name "a" Load); Pass]))) 1 =
     Some (Expr (_build_st_write_call [Str "**a**"; Name "a" Load])).
Proof.
  split; [reflexivity|]. split; [reflexivity|].
  destruct (classification_is_pure (Name "a" Load) (Name "b" Load) 1 2 ast_With
              eq_refl eq_refl) as (H1 & _ & H3 & H4).
  split; [exact H1|]. split; [exact H3|].
  exact (H4 attr_body [Pass] [Pass] eq_refl).
Defined.

(* ================================================================== *)
(** ** The entry point *)

(** C9: when the interpreter is not Python 3, [add_magic] neither parses nor
    rewrites anything and returns the source text it was given, as a string;
    under Python 3 it calls the parser and, when that returns a module,
    returns the module rewritten by the root invocation of the walker. *)
Theorem add_magic_python3_gate
    (ast_parse : string -> string -> string + module) (code script_path : string) :
  add_magic false ast_parse code script_path = (ReturnsCode code, [])
  /\ add_magic true ast_parse code script_path =
     match ast_parse code script_path with
     | inr tree =>
         (ReturnsTree (value_of (_modify_ast_subtree tree true)),
          EvParse code script_path :: trace_of (_modify_ast_subtree tree true))
     | inl msg => (RaisesSyntaxError msg, [EvParse code script_path])
     end
  /\ (forall is_running_py3,
        match value_of (add_magic is_running_py3 ast_parse code script_path) with
        | ReturnsTree _ | RaisesSyntaxError _ => is_running_py3 = true
        | ReturnsCode code' => is_running_py3 = false /\ code' = code
        end).
Proof.
  split; [reflexivity|]. split.
  - unfold add_magic. destruct (ast_parse code script_path) as [msg|tree].
    + reflexivity.
    + cbv beta iota. rewrite !bind_eq. run. reflexivity.
  - intros [|]; unfold add_magic.
    + destruct (ast_parse code script_path) as [msg|tree]; cbv beta iota.
      * reflexivity.
      * rewrite !bind_eq. run. reflexivity.
    + split; reflexivity.
Qed.

(* ================================================================== *)
(** ** The names shared by the injector and the rewriter *)

(** C10: the one import statement the injector inserts binds the module
    [streamlit] under the alias [__streamlit__], and every display call the
    rewriter builds calls the attribute [_transparent_write] of a name
    whose identifier is that alias, with no keyword argument. *)
Theorem naming_contract :
  exists asname,
    _build_st_import_statement = Import [mk_alias "streamlit" (Some asname)]
    /\ asname = "__streamlit__"
    /\ (forall tree,
          nth_error (mod_body (value_of (_insert_import_statement tree)))
                    (spec_import_index (mod_body tree)) =
          Some (Import [mk_alias "streamlit" (Some asname)]))
    /\ (forall nodes,
          _build_st_write_call nodes =
          Call (Attribute (Name asname Load) "_transparent_write" Load)
               nodes [] None None)
    /\ (forall value i parent_type,
          match _get_st_write_from_expr value i parent_type with
          | Some display =>
              exists nodes,
                display = Call (Attribute (Name asname Load) "_transparent_write" Load)
                               nodes [] None None
          | None => True
          end).
Proof.
  exists "__streamlit__". repeat split.
  - intro tree. unfold _insert_import_statement. run. cbn [mod_body].
    rewrite import_index_spec.
    apply list_insert_nth_error, spec_import_index_le.
  - intros value i parent_type. rewrite get_st_write_from_expr_rule.
    destruct (applied_rule value i parent_type), value; simpl;
      try exact I; eexists; reflexivity.
Qed.

(* ================================================================== *)
(** ** The scripts, run through the pass *)

Example assign_then_show_rewritten :
  value_of (_modify_ast_subtree Scripts.assign_then_show true) =
  Module [ _build_st_import_statement;
           Assign [Name "x" Store] (Num 1);
           Expr (_build_st_write_call [Str "**x**"; Scripts.x]);
           Expr (_build_st_write_call [Str "hello"]);
           Expr (_build_st_write_call [Tuple [Scripts.x; Scripts.x] Load]) ].
Proof. reflexivity. Qed.

Example future_import_rewritten :
  _modify_ast_subtree Scripts.future_import true =
  (Module [ ImportFrom (Some "__future__") [mk_alias "annotations" None] 0;
            _build_st_import_statement;
            Expr (Call (Name "print" Load) [Num 1] [] None None) ],
   [EvEnter ast_Module attr_body; EvInsertImport 1; EvFixLocations ast_Module]).
Proof. reflexivity. Qed.

(** The handler is walked first, the main body of the try statement last. *)
Example guarded_trace :
  trace_of (_modify_ast_subtree Scripts.guarded true) =
  [ EvEnter ast_Module attr_body;
    EvEnter ast_ExceptHandler attr_body;
    EvSetValue ast_ExceptHandler 0 (_build_st_write_call [Str "**x**"; Scripts.x]);
    EvFixLocations ast_ExceptHandler;
    EvStoreHandler 0;
    EvEnter ast_Try attr_finalbody;
    EvSetValue ast_Try 0 (_build_st_write_call [Str "f"]);
    EvFixLocations ast_Try;
    EvStoreFinalbody;
    EvEnter ast_Try attr_body;
    EvSetValue ast_Try 0 (_build_st_write_call [Str "a"]);
    EvFixLocations ast_Try;
    EvStoreStmt 2;
    EvInsertImport 2;
    EvFixLocations ast_Module ].
Proof. reflexivity. Qed.

(* ================================================================== *)
(** ** Counting events *)

Lemma count_events_app (p : event -> bool) (t1 t2 : list event) :
  count_events p (t1 ++ t2) = count_events p t1 + count_events p t2.
Proof. unfold count_events. now rewrite filter_app, length_app. Qed.

Lemma count_events_cons (p : event -> bool) (e : event) (t : list event) :
  count_events p (e :: t) = (if p e then 1 else 0) + count_events p t.
Proof. unfold count_events. simpl. now destruct (p e). Qed.

Lemma count_events_nil (p : event -> bool) : count_events p [] = 0.
Proof. reflexivity. Qed.

Lemma count_events_concat_imap {A} (p : event -> bool)
    (t : nat -> A -> list event) (h : A -> nat) (xs : list A) :
  Forall (fun x => forall j, count_events p (t j x) = h x) xs ->
  forall i, count_events p (List.concat (imap_from t i xs)) = list_sum (map h xs).
Proof.
  induction 1 as [|x rest Hx _ IH]; intro i; simpl.
  - reflexivity.
  - now rewrite count_events_app, Hx, IH.
Qed.

Lemma list_sum_zero {A} (xs : list A) : list_sum (map (fun _ => 0) xs) = 0.
Proof. induction xs; simpl; auto. Qed.

Lemma loop_body_FunctionDef_trace parent_type i name params body decorator_list returns :
  trace_of (loop_body parent_type i (FunctionDef name params body decorator_list returns)) =
  trace_of (modify_nested loop_body ast_FunctionDef attr_body body) ++ [EvStoreStmt i].
Proof. cbn [loop_body]. run. reflexivity. Qed.

Lemma loop_body_With_trace parent_type i items body :
  trace_of (loop_body parent_type i (With items body)) =
  trace_of (modify_nested loop_body ast_With attr_body body) ++ [EvStoreStmt i].
Proof. cbn [loop_body]. run. reflexivity. Qed.

(** The events of a nested invocation: the entry, the events of the loop,
    the call of [ast.fix_missing_locations]. *)
Lemma modify_nested_count (p : event -> bool) owner attr body :
  count_events p (trace_of (modify_nested loop_body owner attr body)) =
  (if p (EvEnter owner attr) then 1 else 0)
  + count_events p
      (List.concat (imap_from (fun j x => trace_of (loop_body owner j x)) 0 body))
  + (if p (EvFixLocations owner) then 1 else 0).
Proof.
  rewrite modify_nested_trace, subtree_loop_trace.
  rewrite count_events_app, !count_events_cons, count_events_nil. lia.
Qed.

Lemma handlers_count (p : event -> bool) handlers :
  count_events p (trace_of (for_enumerate (modify_handler loop_body) 0 handlers)) =
  count_events p
    (List.concat
       (imap_from
          (fun j h =>
             trace_of (modify_nested loop_body ast_ExceptHandler attr_body
                         (handler_body h)) ++ [EvStoreHandler j])
          0 handlers)).
Proof.
  rewrite for_enumerate_trace. f_equal. f_equal.
  apply imap_from_ext. intros j h. apply modify_handler_trace.
Qed.

(* ================================================================== *)
(** ** After the pass *)

Lemma forallb_from_imap {A} (g : nat -> A -> bool) (f : nat -> A -> A) (xs : list A) :
  Forall (fun x => forall j, g j (f j x) = true) xs ->
  forall i, forallb_from g i (imap_from f i xs) = true.
Proof.
  induction 1 as [|x rest Hx _ IH]; intro i; simpl.
  - reflexivity.
  - now rewrite Hx, IH.
Qed.

Lemma settled_rewritten (value : expr) (i : nat) (owner : node_type) :
  settled owner i (rewritten value i owner) = true.
Proof.
  unfold rewritten, _get_st_write_from_expr.
  destruct (is_Call value) eqn:Hc.
  - cbn [settled]. unfold settled_value. now rewrite Hc.
  - destruct ((i =? 0) && is_Str value && in_FunctionDef_Module owner) eqn:Hd.
    + cbn [settled]. unfold settled_value. rewrite Hd. apply orb_true_r.
    + destruct value; reflexivity.
Qed.

Lemma loop_body_settled : forall s parent_type i,
  settled parent_type i (value_of (loop_body parent_type i s)) = true.
Proof.
  induction s using walk_ind; intros parent_type i.
  - rewrite loop_body_FunctionDef, modify_nested_value. cbn [settled].
    apply forallb_from_imap.
    eapply Forall_impl; [|eassumption]. intros x Hx j. apply Hx.
  - rewrite loop_body_With, modify_nested_value. cbn [settled].
    apply forallb_from_imap.
    eapply Forall_impl; [|eassumption]. intros x Hx j. apply Hx.
  - rewrite loop_body_Try, !modify_nested_value, for_enumerate_value.
    cbn [settled]. rewrite !andb_true_iff. repeat split.
    + apply forallb_forall. intros h' Hin.
      apply In_nth_error in Hin. destruct Hin as [n Hn].
      rewrite imap_from_nth_error in Hn.
      destruct (nth_error handlers n) as [h|] eqn:Hh; [|discriminate].
      injection Hn as <-.
      apply nth_error_In in Hh.
      rewrite Forall_forall in H0. specialize (H0 h Hh).
      rewrite modify_handler_value. destruct h as [type name hbody].
      rewrite modify_nested_value. apply forallb_from_imap.
      eapply Forall_impl; [|exact H0]. intros x Hx j. apply Hx.
    + apply forallb_from_imap.
      eapply Forall_impl; [|eassumption]. intros x Hx j. apply Hx.
    + apply forallb_from_imap.
      eapply Forall_impl; [|eassumption]. intros x Hx j. apply Hx.
  - destruct s; try discriminate; try reflexivity.
    rewrite loop_body_Expr_value. apply settled_rewritten.
Qed.

(** X1: after the pass no bare expression is left to display: in every
    processed sequence, at every depth, each expression statement holds a
    call, or is a string literal at index 0 of a function body or of the
    module.  For the root sequence the indices are the ones before the
    import was inserted. *)
Theorem pass_leaves_calls_and_docstrings (tree : module) :
  (forall s parent_type i,
     settled parent_type i (value_of (loop_body parent_type i s)) = true)
  /\ forallb_from (settled ast_Module) 0
       (remove_at (spec_import_index (mod_body tree))
          (mod_body (value_of (_modify_ast_subtree tree true)))) = true.
Proof.
  split; [apply loop_body_settled|].
  rewrite modify_ast_subtree_body. cbv zeta.
  rewrite remove_at_list_insert.
  - apply forallb_from_imap. apply Forall_forall. intros x _ j.
    apply loop_body_settled.
  - rewrite imap_from_length. apply spec_import_index_le.
Qed.

(* ================================================================== *)
(** ** A second walk *)

Lemma settled_sequence_untouched (owner : node_type) (attr : body_attr)
    (xs : list stmt) :
  Forall untouched xs ->
  forallb_from (settled owner) 0 xs = true ->
  value_of (modify_nested loop_body owner attr xs) = xs
  /\ count_events is_set_value (trace_of (modify_nested loop_body owner attr xs)) = 0.
Proof.
  intros Hall Hset.
  rewrite modify_nested_value, modify_nested_count. cbn [is_set_value].
  enough (H : forall k, forallb_from (settled owner) k xs = true ->
            imap_from (fun j x => value_of (loop_body owner j x)) k xs = xs
            /\ count_events is_set_value
                 (List.concat (imap_from (fun j x => trace_of (loop_body owner j x)) k xs)) = 0).
  { destruct (H 0 Hset) as [Hv Ht]. rewrite Hv, Ht. split; reflexivity. }
  clear Hset. induction Hall as [|x rest Hx _ IH]; intros k Hk.
  - split; reflexivity.
  - cbn [forallb_from] in Hk. apply andb_true_iff in Hk. destruct Hk as [Hk1 Hk2].
    destruct (Hx owner k Hk1) as [Hv Ht]. destruct (IH (S k) Hk2) as [Hvs Hts].
    cbn [imap_from List.concat]. rewrite count_events_app, Hv, Ht, Hvs, Hts.
    split; reflexivity.
Qed.

Lemma settled_untouched : forall s, untouched s.
Proof.
  induction s using walk_ind; intros parent_type i Hs; cbn [settled] in Hs.
  - destruct (settled_sequence_untouched ast_FunctionDef attr_body H Hs) as [Hv Ht].
    rewrite loop_body_FunctionDef, loop_body_FunctionDef_trace, count_events_app.
    rewrite Hv, Ht. split; reflexivity.
  - destruct (settled_sequence_untouched ast_With attr_body H Hs) as [Hv Ht].
    rewrite loop_body_With, loop_body_With_trace, count_events_app.
    rewrite Hv, Ht. split; reflexivity.
  - rewrite !andb_true_iff in Hs. destruct Hs as [[Hh Hf] Hb].
    destruct (settled_sequence_untouched ast_Try attr_body H Hb) as [Hbv Hbt].
    destruct (settled_sequence_untouched ast_Try attr_finalbody H1 Hf) as [Hfv Hft].
    assert (Hhs : forall k,
              imap_from (fun j h => value_of (modify_handler loop_body j h)) k handlers
              = handlers
              /\ count_events is_set_value
                   (List.concat
                      (imap_from (fun j h => trace_of (modify_handler loop_body j h))
                                 k handlers)) = 0).
    { clear - H0 Hh. induction H0 as [|h rest Hx _ IH]; intro k.
      - split; reflexivity.
      - cbn [forallb] in Hh. apply andb_true_iff in Hh. destruct Hh as [Hh1 Hh2].
        destruct (IH Hh2 (S k)) as [Hvs Hts].
        destruct h as [type name hbody]. cbn [handler_body] in Hx.
        destruct (settled_sequence_untouched ast_ExceptHandler attr_body Hx Hh1)
          as [Hv Ht].
        cbn [imap_from List.concat].
        rewrite count_events_app, modify_handler_value, modify_handler_trace.
        cbn [handler_body]. rewrite count_events_app, Hv, Ht, Hvs, Hts.
        split; reflexivity. }
    destruct (Hhs 0) as [Hhv Hht].
    rewrite loop_body_Try, loop_body_Try_trace, !count_events_app.
    rewrite for_enumerate_value, for_enumerate_trace.
    rewrite Hbv, Hfv, Hhv, Hbt, Hft, Hht. split; reflexivity.
  - destruct s; try discriminate; try (split; reflexivity).
    cbn [settled] in Hs. rewrite loop_body_Expr.
    unfold _get_st_write_from_expr. unfold settled_value in Hs.
    destruct (is_Call value); [split; reflexivity|].
    cbn [orb] in Hs. rewrite Hs. split; reflexivity.
Qed.

(** X2: walking a statement a second time, at the same index under an owner
    of the same class, changes nothing: the second walk returns the
    statement the first walk returned and assigns no value, so a display
    call is never wrapped into another one. *)
Theorem second_walk_changes_nothing
    (s : stmt) (parent_type : node_type) (i : nat) :
  let once := value_of (loop_body parent_type i s) in
  value_of (loop_body parent_type i once) = once
  /\ count_events is_set_value (trace_of (loop_body parent_type i once)) = 0.
Proof.
  intro once. apply settled_untouched. apply loop_body_settled.
Qed.

(* ================================================================== *)
(** ** What is displayed, and how *)

(** X3: the classifier returns a replacement for every expression that is
    neither a call nor a docstring, and for no other; the replacement is a
    call whose arguments are the elements of the expression when it is a
    tuple (none for the empty tuple) and otherwise end with the expression
    itself, preceded by a label only when it is a name. *)
Theorem every_other_expression_is_displayed
    (value : expr) (i : nat) (parent_type : node_type) :
  if settled_value value i parent_type
  then _get_st_write_from_expr value i parent_type = None
  else exists display,
         _get_st_write_from_expr value i parent_type = Some display
         /\ is_Call display = true
         /\ match value with
            | Tuple elts _ => call_args display = elts
            | Name _ _ =>
                length (call_args display) = 2
                /\ nth_error (call_args display) 1 = Some value
            | _ => call_args display = [value]
            end.
Proof.
  unfold settled_value, _get_st_write_from_expr.
  destruct (is_Call value) eqn:Hc; [reflexivity|]. cbn [orb].
  destruct ((i =? 0) && is_Str value && in_FunctionDef_Module parent_type);
    [reflexivity|].
  destruct value; try discriminate Hc; eexists; repeat split.
Qed.

(* ================================================================== *)
(** ** One import for each pass *)

Lemma is_streamlit_import_skeleton (s : stmt) :
  is_streamlit_import (skeleton s) = is_streamlit_import s.
Proof. destruct s; reflexivity. Qed.

Lemma loop_body_is_streamlit_import (s : stmt) (parent_type : node_type) (i : nat) :
  is_streamlit_import (value_of (loop_body parent_type i s)) = is_streamlit_import s.
Proof.
  rewrite <- is_streamlit_import_skeleton, loop_body_skeleton.
  apply is_streamlit_import_skeleton.
Qed.

Lemma filter_length_map {A} (p : A -> bool) (xs : list A) : forall ys,
  map p xs = map p ys -> length (filter p xs) = length (filter p ys).
Proof.
  induction xs as [|x rest IH]; intros [|y ys] H; try discriminate H.
  - reflexivity.
  - simpl in H. injection H as Hxy Hrest. simpl. rewrite <- Hxy.
    destruct (p x); simpl; now rewrite (IH ys Hrest).
Qed.

Lemma filter_length_list_insert {A} (p : A -> bool) (i : nat) (x : A) (xs : list A) :
  length (filter p (list_insert i x xs)) =
  (if p x then 1 else 0) + length (filter p xs).
Proof.
  unfold list_insert. rewrite <- (firstn_skipn i xs) at 3.
  rewrite !filter_app, !length_app. simpl. destruct (p x); simpl; lia.
Qed.

Lemma walked_streamlit_imports (body : list stmt) :
  length (filter is_streamlit_import
            (imap_from (fun j x => value_of (loop_body ast_Module j x)) 0 body)) =
  length (filter is_streamlit_import body).
Proof.
  apply filter_length_map. apply imap_from_map.
  apply Forall_forall. intros x _ j. apply loop_body_is_streamlit_import.
Qed.

(** X4: the injector does not look for an import that is already there: a
    root invocation adds one [import streamlit as __streamlit__] to the root
    sequence whatever the sequence holds, so [n] passes over a module leave
    [n] more of them, and [n] more statements, than the module had; an
    invocation that is not the root one adds none. *)
Theorem each_pass_adds_an_import (tree : module) (n : nat) :
  streamlit_imports (passes n tree) = n + streamlit_imports tree
  /\ length (mod_body (passes n tree)) = n + length (mod_body tree)
  /\ streamlit_imports (value_of (_modify_ast_subtree tree false)) =
     streamlit_imports tree.
Proof.
  unfold streamlit_imports. repeat split.
  - induction n as [|n IH]; [reflexivity|].
    cbn [passes]. rewrite modify_ast_subtree_body. cbv zeta.
    rewrite filter_length_list_insert, walked_streamlit_imports, IH.
    reflexivity.
  - induction n as [|n IH]; [reflexivity|].
    cbn [passes]. rewrite modify_ast_subtree_body. cbv zeta.
    rewrite list_insert_length, imap_from_length, IH. reflexivity.
  - rewrite modify_ast_subtree_body. apply walked_streamlit_imports.
Qed.

(* ================================================================== *)
(** ** Events that go with the invocations *)

Section PerInvocation.

(** A kind of event that the loop itself never causes and that every nested
    invocation causes [c] times. *)
Variable p : event -> bool.
Variable c : nat.

Hypothesis p_invocation : forall owner attr,
  (if p (EvEnter owner attr) then 1 else 0)
  + (if p (EvFixLocations owner) then 1 else 0) = c.
Hypothesis p_set_value : forall owner i value, p (EvSetValue owner i value) = false.
Hypothesis p_store_stmt : forall i, p (EvStoreStmt i) = false.
Hypothesis p_store_handler : forall j, p (EvStoreHandler j) = false.
Hypothesis p_store_finalbody : p EvStoreFinalbody = false.

Lemma per_invocation_sequence owner attr (body : list stmt) :
  Forall (fun s => forall parent_type i,
            count_events p (trace_of (loop_body parent_type i s)) =
            c * length (sequence_lengths s)) body ->
  count_events p (trace_of (modify_nested loop_body owner attr body)) =
  c * S (length (flat_map sequence_lengths body)).
Proof.
  intro Hall. rewrite modify_nested_count.
  rewrite (count_events_concat_imap p _
             (fun s => c * length (sequence_lengths s))).
  - pose proof (p_invocation owner attr) as Hc.
    rewrite length_flat_map.
    assert (Hsum : forall xs : list stmt,
              list_sum (map (fun s => c * length (sequence_lengths s)) xs) =
              c * list_sum (map (fun s => length (sequence_lengths s)) xs)).
    { induction xs as [|x rest IH]; simpl; [lia|]. rewrite IH. lia. }
    rewrite Hsum. lia.
  - eapply Forall_impl; [|exact Hall]. intros s Hs j. apply Hs.
Qed.

Lemma per_invocation : forall s parent_type i,
  count_events p (trace_of (loop_body parent_type i s)) =
  c * length (sequence_lengths s).
Proof.
  induction s using walk_ind; intros parent_type i.
  - rewrite loop_body_FunctionDef_trace, count_events_app, count_events_cons,
      count_events_nil, p_store_stmt.
    rewrite (per_invocation_sequence _ _ H). cbn [sequence_lengths length]. lia.
  - rewrite loop_body_With_trace, count_events_app, count_events_cons,
      count_events_nil, p_store_stmt.
    rewrite (per_invocation_sequence _ _ H). cbn [sequence_lengths length]. lia.
  - rewrite loop_body_Try_trace, !count_events_app, !count_events_cons,
      !count_events_nil, p_store_stmt, p_store_finalbody.
    rewrite (per_invocation_sequence _ _ H), (per_invocation_sequence _ _ H1).
    rewrite handlers_count.
    rewrite (count_events_concat_imap p _
               (fun h => c * S (length (flat_map sequence_lengths (handler_body h))))).
    + cbn [sequence_lengths]. rewrite !length_app. cbn [length].
      rewrite !length_flat_map.
      assert (Hsum : forall hs : list excepthandler,
                list_sum (map (fun h => c * S (length (flat_map sequence_lengths
                                                         (handler_body h)))) hs) =
                c * list_sum
                      (map (fun h =>
                              length match h with
                                     | ExceptHandler _ _ hbody =>
                                         length hbody :: flat_map sequence_lengths hbody
                                     end) hs)).
      { induction hs as [|[type name hbody] rest IH]; simpl; [lia|].
        rewrite IH. lia. }
      rewrite Hsum. lia.
    + eapply Forall_impl; [|exact H0]. intros h Hh j.
      rewrite count_events_app, count_events_cons, count_events_nil,
        p_store_handler.
      rewrite (per_invocation_sequence _ _ Hh). lia.
  - destruct s; try discriminate; cbn [sequence_lengths length];
      rewrite Nat.mul_0_r; try reflexivity.
    rewrite loop_body_Expr.
    destruct (_get_st_write_from_expr value i parent_type); [|reflexivity].
    unfold trace_of. cbn [snd]. now rewrite count_events_cons, p_set_value.
Qed.

End PerInvocation.

Lemma modify_ast_subtree_trace (tree : module) :
  trace_of (_modify_ast_subtree tree true) =
  EvEnter ast_Module attr_body
  :: List.concat (imap_from (fun j x => trace_of (loop_body ast_Module j x)) 0
                            (mod_body tree))
  ++ [EvInsertImport (spec_import_index (mod_body tree));
      EvFixLocations ast_Module].
Proof.
  unfold _modify_ast_subtree, _insert_import_statement. run.
  rewrite subtree_loop_trace, subtree_loop_value. cbn [mod_body].
  rewrite import_index_walked, import_index_spec.
  reflexivity.
Qed.

Lemma walk_count (p : event -> bool) (c : nat) (body : list stmt) :
  (forall s parent_type i,
     count_events p (trace_of (loop_body parent_type i s)) =
     c * length (sequence_lengths s)) ->
  count_events p
    (List.concat (imap_from (fun j x => trace_of (loop_body ast_Module j x)) 0 body)) =
  c * length (flat_map sequence_lengths body).
Proof.
  intro H.
  rewrite (count_events_concat_imap p _ (fun s => c * length (sequence_lengths s))).
  - rewrite length_flat_map.
    induction body as [|x rest IH]; simpl; [lia|]. rewrite IH. lia.
  - apply Forall_forall. intros x _ j. apply H.
Qed.

(** X5: a root invocation enters every processed sequence of the module
    exactly once, the root sequence included, and calls
    [ast.fix_missing_locations] once for each of them: both kinds of event
    occur in the trace as many times as the module has processed
    sequences. *)
Theorem every_sequence_entered_once (tree : module) :
  count_events is_enter (trace_of (_modify_ast_subtree tree true)) =
    length (module_sequence_lengths tree)
  /\ count_events is_fix_locations (trace_of (_modify_ast_subtree tree true)) =
    length (module_sequence_lengths tree).
Proof.
  unfold module_sequence_lengths. cbn [length].
  rewrite modify_ast_subtree_trace.
  rewrite !count_events_cons, !count_events_app, !count_events_cons,
    !count_events_nil. cbn [is_enter is_fix_locations].
  split.
  - rewrite (walk_count is_enter 1); [lia|].
    intros s parent_type i. now apply per_invocation.
  - rewrite (walk_count is_fix_locations 1); [lia|].
    intros s parent_type i. now apply per_invocation.
Qed.

(** X6: the import is inserted exactly once in a root invocation, after the
    whole walk and just before the final call of
    [ast.fix_missing_locations]; no nested invocation inserts one, and a
    module walked with [is_root=False] gets none. *)
Theorem import_inserted_once_after_the_walk (tree : module) :
  (exists walk,
     trace_of (_modify_ast_subtree tree true) =
     EvEnter ast_Module attr_body :: walk
     ++ [EvInsertImport (spec_import_index (mod_body tree));
         EvFixLocations ast_Module]
     /\ count_events is_insert_import walk = 0)
  /\ count_events is_insert_import (trace_of (_modify_ast_subtree tree true)) = 1
  /\ count_events is_insert_import (trace_of (_modify_ast_subtree tree false)) = 0
  /\ (forall s parent_type i,
        count_events is_insert_import (trace_of (loop_body parent_type i s)) = 0).
Proof.
  assert (Hnone : forall s parent_type i,
            count_events is_insert_import (trace_of (loop_body parent_type i s)) =
            0 * length (sequence_lengths s)).
  { intros s parent_type i. now apply per_invocation. }
  assert (Hwalk : count_events is_insert_import
            (List.concat (imap_from (fun j x => trace_of (loop_body ast_Module j x)) 0
                                    (mod_body tree))) = 0).
  { now rewrite (walk_count is_insert_import 0). }
  repeat split.
  - eexists. split; [apply modify_ast_subtree_trace | exact Hwalk].
  - rewrite modify_ast_subtree_trace.
    rewrite count_events_cons, count_events_app, !count_events_cons,
      count_events_nil, Hwalk. reflexivity.
  - unfold _modify_ast_subtree. run. rewrite subtree_loop_trace.
    rewrite count_events_app, !count_events_cons, count_events_nil, Hwalk.
    reflexivity.
  - intros s parent_type i. now rewrite Hnone.
Qed.

(* ================================================================== *)
(** ** The head of the module *)

(** X7: the statements the import is put behind stay where they are and as
    they are: a leading import (a [from __future__ import] for one) is still
    the first statement after the pass, and a leading docstring followed by
    an import still has both at indices 0 and 1. *)
Theorem leading_statements_keep_their_place (tree : module) (j : nat) :
  j < spec_import_index (mod_body tree) ->
  exists s,
    nth_error (mod_body tree) j = Some s
    /\ nth_error (mod_body (value_of (_modify_ast_subtree tree true))) j = Some s.
Proof.
  destruct tree as [body]. cbn [mod_body]. intro Hj.
  rewrite modify_ast_subtree_body. cbn [mod_body]. cbv zeta.
  destruct body as [|s0 [|s1 rest]].
  - simpl in Hj. lia.
  - destruct s0; try destruct value; simpl in Hj; try lia;
      (destruct j as [|j]; [|lia]); eexists; split; reflexivity.
  - destruct s0; try destruct value; try destruct s1; simpl in Hj; try lia;
      (destruct j as [|[|j]]; try lia); eexists; split; reflexivity.
Qed.

Lemma leading_statements_keep_their_place_witness :
  exists s,
    nth_error (mod_body Scripts.guarded) 1 = Some s
    /\ nth_error (mod_body (value_of (_modify_ast_subtree Scripts.guarded true))) 1 =
       Some s.
Proof.
  apply (leading_statements_keep_their_place Scripts.guarded (j := 1)).
  simpl. lia.
Defined.

Lemma docstring_without_import (d : string) (rest : list stmt) :
  test_at rest 0 is_import = false ->
  mod_body (value_of (_modify_ast_subtree (Module (Expr (Str d) :: rest)) true)) =
  _build_st_import_statement :: Expr (Str d)
  :: imap_from (fun j x => value_of (loop_body ast_Module j x)) 1 rest.
Proof.
  intro Hrest. rewrite modify_ast_subtree_body. cbn [mod_body]. cbv zeta.
  assert (Hk : spec_import_index (Expr (Str d) :: rest) = 0).
  { destruct rest as [|s1 rest']; [reflexivity|].
    unfold test_at in Hrest. cbn [nth_error] in Hrest.
    destruct s1; try discriminate Hrest; reflexivity. }
  rewrite Hk. reflexivity.
Qed.

(** X8: a module docstring that is not followed by an import does not stay
    first: the import goes to index 0 and the docstring, unchanged, to
    index 1.  There it is no longer exempt, so a second pass over the
    result turns it into a display call. *)
Theorem docstring_without_import_is_displaced (d : string) (rest : list stmt) :
  test_at rest 0 is_import = false ->
  let tree := Module (Expr (Str d) :: rest) in
  nth_error (mod_body (passes 1 tree)) 0 = Some _build_st_import_statement
  /\ nth_error (mod_body (passes 1 tree)) 1 = Some (Expr (Str d))
  /\ nth_error (mod_body (passes 2 tree)) 2 =
     Some (Expr (_build_st_write_call [Str d])).
Proof.
  intros Hrest tree. subst tree. cbn [passes].
  split; [|split].
  - now rewrite (docstring_without_import d rest Hrest).
  - now rewrite (docstring_without_import d rest Hrest).
  - rewrite modify_ast_subtree_body.
    rewrite (docstring_without_import d rest Hrest). reflexivity.
Qed.

Lemma docstring_without_import_is_displaced_witness :
  nth_error (mod_body (passes 1 (Module [Expr (Str "doc"); Pass]))) 1 =
    Some (Expr (Str "doc"))
  /\ nth_error (mod_body (passes 2 (Module [Expr (Str "doc"); Pass]))) 2 =
    Some (Expr (_build_st_write_call [Str "doc"])).
Proof.
  destruct (docstring_without_import_is_displaced "doc" [Pass] eq_refl)
    as (_ & H1 & H2).
  split; [exact H1 | exact H2].
Defined.

(* ================================================================== *)
(** ** What the walker passes over *)

Lemma loop_body_passed_over (s : stmt) (parent_type : node_type) (i : nat) :
  passed_over s = true -> loop_body parent_type i s = (s, []).
Proof. destruct s; try discriminate; reflexivity. Qed.

Lemma walk_passed_over (body : list stmt) :
  forallb passed_over body = true ->
  forall k,
    imap_from (fun j x => value_of (loop_body ast_Module j x)) k body = body
    /\ List.concat (imap_from (fun j x => trace_of (loop_body ast_Module j x)) k body)
       = [].
Proof.
  induction body as [|s rest IH]; intros Hall k.
  - split; reflexivity.
  - cbn [forallb] in Hall. apply andb_true_iff in Hall. destruct Hall as [Hs Hrest].
    destruct (IH Hrest (S k)) as [Hv Ht].
    cbn [imap_from List.concat].
    rewrite (loop_body_passed_over s ast_Module k Hs), Hv, Ht.
    split; reflexivity.
Qed.

(** X9: the walker only looks at the statements of the sequences it enters:
    when the root sequence holds no function definition, with statement, try
    statement or expression statement, the pass returns the module with the
    import inserted and nothing else changed, and assigns no value, whatever
    stands inside those statements.  Expression statements in the blocks of
    an [if] or of a class are therefore never displayed. *)
Theorem blocks_not_entered_are_left_alone (body : list stmt) :
  forallb passed_over body = true ->
  _modify_ast_subtree (Module body) true =
  (Module (list_insert (spec_import_index body) _build_st_import_statement body),
   [EvEnter ast_Module attr_body;
    EvInsertImport (spec_import_index body);
    EvFixLocations ast_Module]).
Proof.
  intro Hall. destruct (walk_passed_over body Hall 0) as [Hv Ht].
  rewrite (surjective_pairing (_modify_ast_subtree (Module body) true)).
  fold (value_of (_modify_ast_subtree (Module body) true)).
  fold (trace_of (_modify_ast_subtree (Module body) true)).
  rewrite modify_ast_subtree_trace. cbn [mod_body]. rewrite Ht. cbn [app].
  f_equal.
  pose proof (modify_ast_subtree_body (Module body) true) as Hb.
  cbn [mod_body] in Hb. cbv zeta in Hb. rewrite Hv in Hb.
  destruct (value_of (_modify_ast_subtree (Module body) true)) as [body'].
  cbn [mod_body] in Hb. now rewrite Hb.
Qed.

Lemma blocks_not_entered_are_left_alone_witness :
  value_of (_modify_ast_subtree
              (Module [If (Name "debug" Load) [Expr Scripts.x] [];
                       ClassDef "C" [] [Expr (Str "doc"); Expr Scripts.x]])
              true) =
  Module [_build_st_import_statement;
          If (Name "debug" Load) [Expr Scripts.x] [];
          ClassDef "C" [] [Expr (Str "doc"); Expr Scripts.x]].
Proof.
  rewrite (blocks_not_entered_are_left_alone
             [If (Name "debug" Load) [Expr Scripts.x] [];
              ClassDef "C" [] [Expr (Str "doc"); Expr Scripts.x]] eq_refl).
  reflexivity.
Defined.
